(** * A shallow embedding of the saberrs packet-serial encoder

    The Rust sources embedded here are [src/utils.rs] (numeric mapping,
    checksum) and [src/sabertooth2x60/packetserial.rs] (the Packet Serial
    encoder of the Sabertooth 2x60).

    Integers of the Rust types [u8], [u16], [u32], [i8] and [i32] are
    represented by [Z].  Rust arithmetic on them either panics on overflow
    (builds with overflow checks, the debug profile) or wraps around (the
    release profile); both behaviours are written out and selected by an
    [overflow_mode].  Integer division panics on a zero divisor and on
    [MIN / -1] in every profile.  [f32] is IEEE binary32, modelled with the
    Standard Library's [SpecFloat] at precision 24 and [emax] 128. *)

From Stdlib Require Import ZArith Bool List Lia.
From Stdlib Require Import Floats.SpecFloat.
From Stdlib Require Import Sorting.Permutation.
From Stdlib Require String.
Import ListNotations.
Open Scope Z_scope.

(** ** Rust integer types and their arithmetic *)

Module RustInt.

Record ity := { signed : bool; bits : Z }.

Definition u8 : ity := {| signed := false; bits := 8 |}.
Definition u16 : ity := {| signed := false; bits := 16 |}.
Definition u32 : ity := {| signed := false; bits := 32 |}.
Definition i8 : ity := {| signed := true; bits := 8 |}.
Definition i32 : ity := {| signed := true; bits := 32 |}.

Definition min_value (t : ity) : Z :=
  if signed t then - 2 ^ (bits t - 1) else 0.

Definition max_value (t : ity) : Z :=
  if signed t then 2 ^ (bits t - 1) - 1 else 2 ^ bits t - 1.

Definition in_range (t : ity) (x : Z) : bool :=
  (min_value t <=? x) && (x <=? max_value t).

(** Two's complement wrap-around into the type's range; this is also the
    meaning of an integer [as] cast from a value of another integer type. *)
Definition wrap (t : ity) (x : Z) : Z :=
  if signed t
  then (x + 2 ^ (bits t - 1)) mod 2 ^ bits t - 2 ^ (bits t - 1)
  else x mod 2 ^ bits t.

Definition cast (t : ity) (x : Z) : Z := wrap t x.

End RustInt.

Import RustInt.

(** Why a computation aborted. *)
Inductive panic := Overflow | DivByZero.

(** The result of a computation that may panic. *)
Inductive pres (A : Type) := PVal (a : A) | PPanic (p : panic).
Arguments PVal {A} a.
Arguments PPanic {A} p.

Definition pbind {A B} (m : pres A) (k : A -> pres B) : pres B :=
  match m with
  | PVal a => k a
  | PPanic p => PPanic p
  end.

Notation "x <-- m ;; k" := (pbind m (fun x => k))
  (at level 61, m at next level, right associativity).

(** Whether arithmetic overflow panics ([Checked], debug builds) or wraps
    ([Wrapping], release builds). *)
Inductive overflow_mode := Checked | Wrapping.

Section Arith.

Variable md : overflow_mode.

Definition overflowing (t : ity) (r : Z) : pres Z :=
  if in_range t r then PVal r
  else match md with
       | Checked => PPanic Overflow
       | Wrapping => PVal (wrap t r)
       end.

Definition add (t : ity) (a b : Z) : pres Z := overflowing t (a + b).
Definition sub (t : ity) (a b : Z) : pres Z := overflowing t (a - b).
Definition mul (t : ity) (a b : Z) : pres Z := overflowing t (a * b).
Definition neg (t : ity) (a : Z) : pres Z := overflowing t (- a).

(** [/] on integers truncates toward zero; it panics on a zero divisor and
    on an overflowing quotient whatever the build profile. *)
Definition div (t : ity) (a b : Z) : pres Z :=
  if b =? 0 then PPanic DivByZero
  else let r := Z.quot a b in
       if in_range t r then PVal r else PPanic Overflow.

(** [utils::map_range], instantiated at an integer type [t]:
    [to_range.0 + (s - from_range.0) * (to_range.1 - to_range.0)
                  / (from_range.1 - from_range.0)] *)
Definition map_range (t : ity) (from_range to_range : Z * Z) (s : Z) : pres Z :=
  d1 <-- sub t s (fst from_range) ;;
  d2 <-- sub t (snd to_range) (fst to_range) ;;
  p <-- mul t d1 d2 ;;
  w <-- sub t (snd from_range) (fst from_range) ;;
  q <-- div t p w ;;
  add t (fst to_range) q.

(** [utils::checksum]: the bytes are summed as [u32] by [Iterator::sum]
    (a left fold from 0), then [(s & 0x7f) as u8]. *)
Fixpoint sum_u32 (acc : Z) (data : list Z) : pres Z :=
  match data with
  | [] => PVal acc
  | b :: rest => acc' <-- add u32 acc b ;; sum_u32 acc' rest
  end.

Definition checksum (data : list Z) : pres Z :=
  s <-- sum_u32 0 data ;;
  PVal (cast u8 (Z.land s 127)).

End Arith.

(** [utils::map_range] instantiated at a floating-point type: IEEE binary
    arithmetic at precision [prec] and maximal exponent [emax] ([f32] is 24
    and 128, [f64] is 53 and 1024), rounding to nearest, ties to even.
    Float arithmetic never panics. *)
Definition map_range_float (prec emax : Z) (from_range to_range : spec_float * spec_float)
    (s : spec_float) : spec_float :=
  SFadd prec emax (fst to_range)
    (SFdiv prec emax
       (SFmul prec emax (SFsub prec emax s (fst from_range))
          (SFsub prec emax (snd to_range) (fst to_range)))
       (SFsub prec emax (snd from_range) (fst from_range))).

(** *** The affine formula of the spec, evaluated in a numeric domain

    A numeric domain is given by its four operations, each of which may
    panic. *)
Record domain (A : Type) := {
  d_add : A -> A -> pres A;
  d_sub : A -> A -> pres A;
  d_mul : A -> A -> pres A;
  d_div : A -> A -> pres A
}.
Arguments d_add {A} d _ _.
Arguments d_sub {A} d _ _.
Arguments d_mul {A} d _ _.
Arguments d_div {A} d _ _.

(** An integer type in a build profile: [+], [-], [*] overflow as the
    profile says, [/] truncates toward zero. *)
Definition int_domain (md : overflow_mode) (t : ity) : domain Z := {|
  d_add := add md t;
  d_sub := sub md t;
  d_mul := mul md t;
  d_div := div t
|}.

(** An IEEE binary floating-point format. *)
Definition float_domain (prec emax : Z) : domain spec_float := {|
  d_add x y := PVal (SFadd prec emax x y);
  d_sub x y := PVal (SFsub prec emax x y);
  d_mul x y := PVal (SFmul prec emax x y);
  d_div x y := PVal (SFdiv prec emax x y)
|}.

(** Follows the spec's words:
    [to_low + (value - from_low) * (to_high - to_low) / (from_high - from_low)]
    evaluated in the domain, operands left to right. *)
Definition affine_formula {A} (D : domain A) (from_low from_high to_low to_high value : A)
    : pres A :=
  x <-- d_sub D value from_low ;;
  y <-- d_sub D to_high to_low ;;
  p <-- d_mul D x y ;;
  w <-- d_sub D from_high from_low ;;
  q <-- d_div D p w ;;
  d_add D to_low q.

(** ** Errors, the transport capability and the encoder state *)

(** [error::ErrorKind]; the description string is not modelled. *)
Inductive error := Serial | InvalidInput | Response | Unknwown.

(** Outcome of a call: a [Result] value, or a panic. *)
Inductive outcome (A : Type) :=
| ROk (a : A)
| RErr (e : error)
| RPanic (p : panic).
Arguments ROk {A} a.
Arguments RErr {A} e.
Arguments RPanic {A} p.

(** The transport, [port::SabertoothSerial], as used by the encoder:
    [write_all] of a byte buffer and [set_baud_rate]. *)
Class SabertoothSerial (T : Type) := {
  write_all : T -> list Z -> T * outcome unit;
  dev_set_baud_rate : T -> Z -> T * outcome unit
}.

(** [pub struct PacketSerial<T> { dev: T, address: u8 }] *)
Record PacketSerial (T : Type) := mkPacketSerial { dev : T; address : Z }.
Arguments mkPacketSerial {T} dev address.
Arguments dev {T} p.
Arguments address {T} p.

Definition DEFAULT_ADDRESS : Z := 128.
Definition MAX_SERIAL_TIMEOUT_MS : Z := 12700.

(** [impl From<T> for PacketSerial<T>] *)
Definition from_dev {T} (d : T) : PacketSerial T := mkPacketSerial d DEFAULT_ADDRESS.

(** [PacketSerial::with_address] *)
Definition with_address {T} (self : PacketSerial T) (a : Z) : PacketSerial T :=
  mkPacketSerial (dev self) a.

(** Methods taking [&mut self]: state passing over the encoder. *)
Definition M (T A : Type) := PacketSerial T -> PacketSerial T * outcome A.

Definition mret {T A} (a : A) : M T A := fun s => (s, ROk a).

Definition mbind {T A B} (m : M T A) (k : A -> M T B) : M T B :=
  fun s => match m s with
           | (s', ROk a) => k a s'
           | (s', RErr e) => (s', RErr e)
           | (s', RPanic p) => (s', RPanic p)
           end.

Definition mfail {T A} (e : error) : M T A := fun s => (s, RErr e).

Definition mlift {T A} (p : pres A) : M T A :=
  fun s => match p with PVal a => (s, ROk a) | PPanic q => (s, RPanic q) end.

Notation "x <- m ;; k" := (mbind m (fun x => k))
  (at level 61, m at next level, right associativity).

Section Encoder.

Context {T : Type} `{SabertoothSerial T}.
Variable md : overflow_mode.

(** A call on the owned device. *)
Definition on_dev (f : T -> T * outcome unit) : M T unit :=
  fun s => let (d', r) := f (dev s) in (mkPacketSerial d' (address s), r).

(** [PacketSerial::write] *)
Definition write (command data : Z) : M T unit :=
  fun s =>
    (c <- mlift (checksum md [address s; command; data]) ;;
     on_dev (fun d => write_all d [address s; command; data; c])) s.

(** [PacketSerial::write_motor_command] *)
Definition write_motor_command (forward_command backward_command value : Z) : M T unit :=
  if 0 <=? value
  then write forward_command (cast u8 (Z.min 127 value))
  else (n <- mlift (neg md i8 (Z.max (-127) value)) ;;
        write backward_command (cast u8 n)).

(** [impl Sabertooth2x60 for PacketSerial<T>] *)
Definition set_serial_timeout (ms : Z) : M T unit :=
  if MAX_SERIAL_TIMEOUT_MS <? ms then mfail InvalidInput
  else
    units <- (if (0 <? ms) && (ms <? 100) then mret 1
              else mlift (div u16 ms 100)) ;;
    data <- mlift (map_range md u16 (0, MAX_SERIAL_TIMEOUT_MS) (0, 127) units) ;;
    write 14 (cast u8 data).

Definition baud_code (baud_rate : Z) : option Z :=
  if baud_rate =? 2400 then Some 1
  else if baud_rate =? 9600 then Some 2
  else if baud_rate =? 19200 then Some 3
  else if baud_rate =? 38400 then Some 4
  else if baud_rate =? 115200 then Some 5
  else None.

Definition set_baud_rate (baud_rate : Z) : M T unit :=
  match baud_code baud_rate with
  | None => mfail InvalidInput
  | Some data =>
      _ <- write 15 data ;;
      on_dev (fun d => dev_set_baud_rate d baud_rate)
  end.

Definition set_ramping (rate : Z) : M T unit :=
  data <- mlift (map_range md u8 (0, 255) (0, 80) rate) ;;
  write 16 data.

Definition set_deadband (deadband : Z) : M T unit :=
  data <- mlift (map_range md u8 (0, 255) (0, 127) deadband) ;;
  write 17 data.

Definition drive_m1 (value : Z) : M T unit := write_motor_command 0 1 value.
Definition drive_m2 (value : Z) : M T unit := write_motor_command 4 5 value.
Definition drive_mixed (value : Z) : M T unit := write_motor_command 8 9 value.
Definition turn_mixed (value : Z) : M T unit := write_motor_command 10 11 value.

End Encoder.

(** The command surface of [impl Sabertooth2x60 for PacketSerial], one
    constructor per method with its argument. *)
Inductive command :=
| SetSerialTimeout (ms : Z)
| SetBaudRate (baud : Z)
| SetRamping (rate : Z)
| SetDeadband (deadband : Z)
| DriveM1 (value : Z)
| DriveM2 (value : Z)
| DriveMixed (value : Z)
| TurnMixed (value : Z).

Definition run_command {T} `{SabertoothSerial T} (md : overflow_mode)
    (c : command) : M T unit :=
  match c with
  | SetSerialTimeout ms => set_serial_timeout md ms
  | SetBaudRate b => set_baud_rate md b
  | SetRamping r => set_ramping md r
  | SetDeadband d => set_deadband md d
  | DriveM1 v => drive_m1 md v
  | DriveM2 v => drive_m2 md v
  | DriveMixed v => drive_mixed md v
  | TurnMixed v => turn_mixed md v
  end.

(** Arguments within the Rust parameter types ([u16], [u32], [u8], [i8]). *)
Definition command_wf (c : command) : bool :=
  match c with
  | SetSerialTimeout ms => in_range u16 ms
  | SetBaudRate b => in_range u32 b
  | SetRamping r => in_range u8 r
  | SetDeadband d => in_range u8 d
  | DriveM1 v | DriveM2 v | DriveMixed v | TurnMixed v => in_range i8 v
  end.

Section VoltageLimits.

Context {T : Type} `{SabertoothSerial T}.
Variable md : overflow_mode.
Variables min_voltage_command max_voltage_command : Z.

(** Modelled from the spec: [set_min_voltage] and [set_max_voltage] of
    [impl Sabertooth2x60 for PacketSerial].  The trait in
    [src/sabertooth2x60/mod.rs] declares them, but [packetserial.rs] has no
    body for them.  The spec's table gives their wire mapping as "identity,
    written as data byte" with no validation beyond the [u8] range; it names
    no command code, so the codes are parameters here. *)
Definition set_min_voltage (units : Z) : M T unit := write md min_voltage_command units.

(** Modelled from the spec: see [set_min_voltage]. *)
Definition set_max_voltage (units : Z) : M T unit := write md max_voltage_command units.

End VoltageLimits.

(** ** A recording transport

    A loopback double of the transport: it records every buffer written and
    the baud rate it is set to; [fail_write] and [fail_baud] make the
    corresponding call fail with a serial error, leaving the port as it was. *)
Record Port := mkPort {
  frames : list (list Z);
  port_baud : Z;
  fail_write : bool;
  fail_baud : bool
}.

#[export] Instance Port_serial : SabertoothSerial Port := {
  write_all p buf :=
    if fail_write p then (p, RErr Serial)
    else (mkPort (frames p ++ [buf]) (port_baud p) (fail_write p) (fail_baud p), ROk tt);
  dev_set_baud_rate p rate :=
    if fail_baud p then (p, RErr Serial)
    else (mkPort (frames p) rate (fail_write p) (fail_baud p), ROk tt)
}.

(** ** [utils::ratio_to_value] over [f32] *)

Module F32.

Definition prec : Z := 24.
Definition emax : Z := 128.

(** An [f32] value: an IEEE binary32 datum. *)
Definition f32 := spec_float.

Definition valid (x : f32) : bool := valid_binary prec emax x.

(** [z as f32] for an integer [z] (round to nearest, ties to even). *)
Definition of_Z (z : Z) : f32 := binary_normalize prec emax z 0 false.

Definition mul (x y : f32) : f32 := SFmul prec emax x y.

(** [PartialOrd::le] on [f32]: false as soon as one side is NaN. *)
Definition le (x y : f32) : bool := SFleb x y.

(** [/] on [f32] (round to nearest, ties to even). *)
Definition div (x y : f32) : f32 := SFdiv prec emax x y.

(** Unary [-] on [f32]: flips the sign. *)
Definition neg (x : f32) : f32 := SFopp x.

(** [x as i32]: truncation toward zero, saturating at the bounds of [i32],
    NaN giving 0. *)
Definition to_i32 (x : f32) : Z :=
  match x with
  | S754_zero _ | S754_nan => 0
  | S754_infinity s => if s then min_value i32 else max_value i32
  | S754_finite s m e =>
      let a := if 0 <=? e then Zpos m * 2 ^ e else Zpos m / 2 ^ (- e) in
      let v := if s then - a else a in
      Z.max (min_value i32) (Z.min (max_value i32) v)
  end.

(** Whether the value of [x] lies in the real interval [-1, 1]: the value
    of a finite datum is [m * 2^e] in magnitude. *)
Definition in_unit (x : f32) : bool :=
  match x with
  | S754_zero _ => true
  | S754_finite _ m e => if 0 <=? e then Zpos m * 2 ^ e <=? 1 else Zpos m <=? 2 ^ (- e)
  | S754_infinity _ | S754_nan => false
  end.

End F32.

Definition RANGE_MAX : Z := 2047.
Definition RANGE_MIN : Z := -2047.

(** [ratio_to_value]; [(-1.0..=1.0).contains(&ratio)] is
    [-1.0 <= ratio && ratio <= 1.0]. *)
Definition ratio_to_value (ratio : F32.f32) : outcome Z :=
  if negb (F32.le (F32.of_Z (-1)) ratio && F32.le ratio (F32.of_Z 1))
  then RErr InvalidInput
  else
    let value := F32.to_i32 (F32.mul ratio (F32.of_Z RANGE_MAX)) in
    if RANGE_MAX <? value then ROk RANGE_MAX
    else if value <? RANGE_MIN then ROk RANGE_MIN
    else ROk value.

(** [utils::value_to_ratio]: [value as f32 / RANGE_MAX as f32]. *)
Definition value_to_ratio (value : Z) : F32.f32 :=
  F32.div (F32.of_Z value) (F32.of_Z RANGE_MAX).

(** ** [error.rs]: the crate's error type and its conversions

    [serialport::ErrorKind] is left abstract, with its [Unknown] variant
    given as an argument where it is used.  [serialport::Error] is the
    serialport crate's public pair of a kind and a description, built by
    [serialport::Error::new].  [io::Error] and the serialport crate's
    conversion of it are abstract as well.  The encoder above only needs the
    kinds of errors and uses [error] for them. *)
Module ErrorRs.

Section ErrorRs.

Context {serial_kind : Type}.

(** [serialport::Error] *)
Record SerialError := mkSerialError {
  serial_error_kind : serial_kind;
  serial_error_description : String.string
}.

(** [serialport::Error::new] *)
Definition serial_error_new (kind : serial_kind) (description : String.string) : SerialError :=
  mkSerialError kind description.

(** [error::ErrorKind] *)
Inductive ErrorKind :=
| Serial (k : serial_kind)
| InvalidInput
| Response
| Unknwown.

(** [error::SubError] *)
Inductive SubError :=
| SubNone
| SubSerial (err : SerialError).

(** [error::Error]; its private field [source] is [source_field] here. *)
Record Error := mkError {
  kind : ErrorKind;
  description : String.string;
  source_field : SubError
}.

(** [Error::new] *)
Definition new (kind : ErrorKind) (description : String.string) : Error :=
  mkError kind description SubNone.


(** [fmt::Display] for [Error]: the description. *)
Definition fmt (e : Error) : String.string := description e.

(** [impl From<serialport::Error> for Error] *)
Definition from_serial (err : SerialError) : Error :=
  mkError (Serial (serial_error_kind err)) (serial_error_description err) (SubSerial err).

(** [impl From<Error> for serialport::Error]; [unknown] is
    [serialport::ErrorKind::Unknown]. *)
Definition to_serial (unknown : serial_kind) (err : Error) : SerialError :=
  let kind := match kind err with
              | Serial serial_kind => serial_kind
              | _ => unknown
              end in
  serial_error_new kind (description err).

(** [impl From<io::Error> for Error], over the serialport crate's
    conversion [serial_of_io] of an [io::Error]. *)
Definition from_io {io_error : Type} (serial_of_io : io_error -> SerialError)
    (err : io_error) : Error :=
  from_serial (serial_of_io err).

End ErrorRs.

End ErrorRs.

(** ** Enumerations used by exhaustive checks *)

(** The integers [lo], [lo + 1], ..., [hi]. *)
Definition Zrange (lo hi : Z) : list Z :=
  map (fun n => lo + Z.of_nat n) (seq 0 (Z.to_nat (hi - lo + 1))).

Definition panic_eqb (p q : panic) : bool :=
  match p, q with
  | Overflow, Overflow | DivByZero, DivByZero => true
  | _, _ => false
  end.

Definition pres_Z_eqb (x y : pres Z) : bool :=
  match x, y with
  | PVal a, PVal b => a =? b
  | PPanic p, PPanic q => panic_eqb p q
  | _, _ => false
  end.

(** ** Properties of calls used in the proofs *)

(** A call leaves the encoder's address as it was. *)
Definition keeps_address {T A} (m : M T A) : Prop :=
  forall s, address (fst (m s)) = address s.

(** On the recording port, a call only appends frames, each of them starting
    with the address the encoder had when called. *)
Definition frames_from_address {A} (m : M Port A) : Prop :=
  forall s, address (fst (m s)) = address s /\
    exists new, frames (dev (fst (m s))) = frames (dev s) ++ new /\
      Forall (fun f => hd_error f = Some (address s)) new.

(** A pure computation does not divide by zero. *)
Definition no_div_by_zero {A} (p : pres A) : Prop := p <> PPanic DivByZero.

(** A call on the recording port does not divide by zero. *)
Definition never_div_by_zero {A} (m : M Port A) : Prop :=
  forall s, snd (m s) <> RPanic DivByZero.

(** * Properties *)

(** ** Integer arithmetic *)

Lemma wrap_in_range (t : ity) (x : Z) :
  1 <= bits t -> in_range t (wrap t x) = true.
Proof.
  intros Hb. unfold in_range, wrap, min_value, max_value.
  assert (Hp : 2 ^ bits t = 2 * 2 ^ (bits t - 1)).
  { rewrite <- Z.pow_succ_r by lia. f_equal; lia. }
  assert (Hh : 0 < 2 ^ (bits t - 1)) by (apply Z.pow_pos_nonneg; lia).
  destruct (signed t).
  - pose proof (Z.mod_pos_bound (x + 2 ^ (bits t - 1)) (2 ^ bits t)).
    apply andb_true_intro; split; apply Z.leb_le; lia.
  - pose proof (Z.mod_pos_bound x (2 ^ bits t)).
    apply andb_true_intro; split; apply Z.leb_le; lia.
Qed.

Lemma wrap_id (t : ity) (x : Z) :
  1 <= bits t -> in_range t x = true -> wrap t x = x.
Proof.
  intros Hb Hr. unfold in_range, min_value, max_value in Hr.
  apply andb_true_iff in Hr as [H1 H2]. apply Z.leb_le in H1, H2.
  unfold wrap.
  assert (Hp : 2 ^ bits t = 2 * 2 ^ (bits t - 1)).
  { rewrite <- Z.pow_succ_r by lia. f_equal; lia. }
  destruct (signed t).
  - rewrite Z.mod_small by lia. lia.
  - apply Z.mod_small. lia.
Qed.

Lemma overflowing_in_range md t r v :
  1 <= bits t -> overflowing md t r = PVal v -> in_range t v = true.
Proof.
  unfold overflowing. intros Hb.
  destruct (in_range t r) eqn:E.
  - intros [= <-]. exact E.
  - destruct md; [discriminate|]. intros [= <-]. now apply wrap_in_range.
Qed.

Lemma overflowing_exact md t r :
  in_range t r = true -> overflowing md t r = PVal r.
Proof. unfold overflowing. now intros ->. Qed.

Lemma map_range_in_range md t f r s v :
  1 <= bits t -> map_range md t f r s = PVal v -> in_range t v = true.
Proof.
  intros Hb. unfold map_range, pbind.
  destruct (sub md t s (fst f)); [|discriminate].
  destruct (sub md t (snd r) (fst r)); [|discriminate].
  destruct (mul md t a a0); [|discriminate].
  destruct (sub md t (snd f) (fst f)); [|discriminate].
  destruct (div t a1 a2); [|discriminate].
  apply overflowing_in_range; assumption.
Qed.

Lemma in_range_u8 x : in_range u8 x = true <-> 0 <= x <= 255.
Proof.
  unfold in_range. change (min_value u8) with 0. change (max_value u8) with 255.
  rewrite andb_true_iff, !Z.leb_le. lia.
Qed.

Lemma in_range_i8 x : in_range i8 x = true <-> -128 <= x <= 127.
Proof.
  unfold in_range. change (min_value i8) with (-128). change (max_value i8) with 127.
  rewrite andb_true_iff, !Z.leb_le. lia.
Qed.

Lemma in_range_u16 x : in_range u16 x = true <-> 0 <= x <= 65535.
Proof.
  unfold in_range. change (min_value u16) with 0. change (max_value u16) with 65535.
  rewrite andb_true_iff, !Z.leb_le. lia.
Qed.

Lemma cast_u8_id x : 0 <= x <= 255 -> cast u8 x = x.
Proof. intros. apply wrap_id; [simpl; lia|]. now apply in_range_u8. Qed.

Lemma cast_u8_range x : 0 <= cast u8 x <= 255.
Proof. apply in_range_u8, wrap_in_range. simpl; lia. Qed.

Lemma land_127 x : Z.land x 127 = x mod 128.
Proof. change 127 with (Z.ones 7). now rewrite Z.land_ones by lia. Qed.

(** The checksum of a frame header: three bytes never overflow a [u32]. *)
Lemma checksum3 md a c d :
  0 <= a <= 255 -> 0 <= c <= 255 -> 0 <= d <= 255 ->
  checksum md [a; c; d] = PVal (Z.land (a + c + d) 127).
Proof.
  intros Ha Hc Hd. unfold checksum, sum_u32, pbind, add.
  assert (Hu : forall r, 0 <= r <= 3 * 255 -> in_range u32 r = true).
  { intros r Hr. unfold in_range. change (min_value u32) with 0.
    change (max_value u32) with 4294967295.
    apply andb_true_intro; split; apply Z.leb_le; lia. }
  rewrite !overflowing_exact by (apply Hu; lia).
  f_equal. replace (0 + a + c + d) with (a + c + d) by lia.
  apply cast_u8_id.
  rewrite land_127.
  pose proof (Z.mod_pos_bound (a + c + d) 128). lia.
Qed.

(** [map_range] when no intermediate value leaves the type's range: the
    affine formula over the integers, with division truncating toward zero. *)
Lemma map_range_exact md t f0 f1 t0 t1 s :
  in_range t (s - f0) = true ->
  in_range t (t1 - t0) = true ->
  in_range t ((s - f0) * (t1 - t0)) = true ->
  in_range t (f1 - f0) = true ->
  f1 - f0 <> 0 ->
  in_range t (Z.quot ((s - f0) * (t1 - t0)) (f1 - f0)) = true ->
  in_range t (t0 + Z.quot ((s - f0) * (t1 - t0)) (f1 - f0)) = true ->
  map_range md t (f0, f1) (t0, t1) s
  = PVal (t0 + Z.quot ((s - f0) * (t1 - t0)) (f1 - f0)).
Proof.
  intros H1 H2 H3 H4 Hw H5 H6.
  unfold map_range, sub, mul, add, div; cbn [fst snd].
  rewrite (overflowing_exact md t (s - f0)) by exact H1; cbn [pbind].
  rewrite (overflowing_exact md t (t1 - t0)) by exact H2; cbn [pbind].
  rewrite (overflowing_exact md t ((s - f0) * (t1 - t0))) by exact H3; cbn [pbind].
  rewrite (overflowing_exact md t (f1 - f0)) by exact H4; cbn [pbind].
  apply Z.eqb_neq in Hw. rewrite Hw, H5; cbn [pbind].
  apply overflowing_exact. exact H6.
Qed.

(** ** The encoder *)

Section EncoderFacts.

Context {T : Type} `{SabertoothSerial T}.

Lemma on_dev_address (f : T -> T * outcome unit) s :
  address (fst (on_dev f s)) = address s.
Proof. unfold on_dev. now destruct (f (dev s)). Qed.

Lemma write_address md c d s :
  address (fst (write md c d s)) = address s.
Proof.
  unfold write, mbind, mlift.
  destruct (checksum md [address s; c; d]); simpl; [|reflexivity].
  apply on_dev_address.
Qed.

(** The sign split of [write_motor_command] on an [i8] value. *)
Lemma write_motor_command_eq md f b value s :
  -128 <= value <= 127 ->
  write_motor_command md f b value s =
  if 0 <=? value then write md f (Z.min 127 value) s
  else write md b (- Z.max (-127) value) s.
Proof.
  intros Hv. unfold write_motor_command.
  destruct (Z.leb_spec 0 value).
  - rewrite cast_u8_id by lia. reflexivity.
  - unfold neg. rewrite overflowing_exact by (apply in_range_i8; lia).
    cbv [mbind mlift]. rewrite cast_u8_id by lia.
    reflexivity.
Qed.

(** [map_range] as [set_serial_timeout] calls it: for every number of
    tenths of a second it can be given, nothing overflows. *)
Lemma timeout_map md units :
  0 <= units <= 127 ->
  map_range md u16 (0, MAX_SERIAL_TIMEOUT_MS) (0, 127) units
  = PVal (units * 127 / 12700).
Proof.
  intros Hu. unfold MAX_SERIAL_TIMEOUT_MS.
  rewrite map_range_exact.
  all: rewrite ?Z.sub_0_r, ?Z.add_0_l; try lia.
  all: rewrite ?Z.quot_div_nonneg by lia; try reflexivity.
  all: apply in_range_u16; split;
    try (apply Z.div_pos; lia); try (apply Z.div_le_upper_bound; lia); lia.
Qed.

Lemma timeout_units ms :
  0 <= ms <= MAX_SERIAL_TIMEOUT_MS ->
  exists units, 0 <= units <= 127 /\
    (if (0 <? ms) && (ms <? 100) then @mret T Z 1 else mlift (div u16 ms 100))
    = mret units /\
    units = (if (0 <? ms) && (ms <? 100) then 1 else ms / 100).
Proof.
  intros Hms. unfold MAX_SERIAL_TIMEOUT_MS in Hms.
  destruct ((0 <? ms) && (ms <? 100)).
  - exists 1. repeat split; lia.
  - exists (ms / 100). unfold div. simpl.
    rewrite Z.quot_div_nonneg by lia.
    replace (in_range u16 (ms / 100)) with true
      by (symmetry; apply in_range_u16; split;
          [apply Z.div_pos|apply Z.div_le_upper_bound]; lia).
    repeat split; try reflexivity.
    + apply Z.div_pos; lia.
    + apply Z.div_le_upper_bound; lia.
Qed.

Ltac motor_shape :=
  match goal with
  | Hwf : in_range i8 ?v = true |- _ =>
      unfold drive_m1, drive_m2, drive_mixed, turn_mixed;
      apply in_range_i8 in Hwf; rewrite write_motor_command_eq by exact Hwf;
      right; left;
      destruct (0 <=? v) eqn:Hs;
      [apply Z.leb_le in Hs | apply Z.leb_gt in Hs];
      eexists _, _; (split; [|split; [|reflexivity]]); lia
  end.

(** Every command either fails before touching the device, or is one call of
    [write] with byte-sized command and data, or (for [set_baud_rate]) a
    [write] followed by the transport's own baud-rate change. *)
Lemma run_command_shape md c s :
  command_wf c = true ->
  (exists e, run_command md c s = (s, e) /\ e <> ROk tt)
  \/ (exists code data, 0 <= code <= 255 /\ 0 <= data <= 255 /\
        run_command md c s = write md code data s)
  \/ (exists b code, c = SetBaudRate b /\ baud_code b = Some code /\
        run_command md c s =
        (_ <- write md 15 code ;; on_dev (fun d => dev_set_baud_rate d b)) s).
Proof.
  intros Hwf. destruct c as [ms|b|r|d|v|v|v|v]; simpl in Hwf |- *.
  - unfold set_serial_timeout.
    destruct (MAX_SERIAL_TIMEOUT_MS <? ms) eqn:Hgt.
    { left. exists (RErr InvalidInput). split; [reflexivity|discriminate]. }
    apply in_range_u16 in Hwf. apply Z.ltb_ge in Hgt.
    destruct (timeout_units ms) as (units & Hu & Heq & _); [lia|].
    unfold mbind at 1. rewrite Heq. unfold mret.
    unfold mbind, mlift. rewrite timeout_map by exact Hu.
    right; left. exists 14, (cast u8 (units * 127 / 12700)).
    pose proof (cast_u8_range (units * 127 / 12700)).
    repeat split; try lia.
  - unfold set_baud_rate. destruct (baud_code b) as [code|] eqn:Hb.
    + right; right. exists b, code. repeat split; assumption.
    + left. exists (RErr InvalidInput). split; [reflexivity|discriminate].
  - unfold set_ramping, mbind, mlift.
    destruct (map_range md u8 (0, 255) (0, 80) r) as [v|p] eqn:Hm.
    + right; left. exists 16, v.
      apply map_range_in_range, in_range_u8 in Hm; [|simpl; lia].
      repeat split; lia.
    + left. exists (RPanic p). split; [reflexivity|discriminate].
  - unfold set_deadband, mbind, mlift.
    destruct (map_range md u8 (0, 255) (0, 127) d) as [v|p] eqn:Hm.
    + right; left. exists 17, v.
      apply map_range_in_range, in_range_u8 in Hm; [|simpl; lia].
      repeat split; lia.
    + left. exists (RPanic p). split; [reflexivity|discriminate].
  - motor_shape.
  - motor_shape.
  - motor_shape.
  - motor_shape.
Qed.

End EncoderFacts.

(** *** Compositional facts: the address is preserved, no zero divisor *)

Section Preserve.

Context {T : Type} `{SabertoothSerial T}.

Lemma keeps_mret {A} (a : A) : keeps_address (T := T) (mret a).
Proof. intros s. reflexivity. Qed.

Lemma keeps_mfail {A} e : keeps_address (T := T) (A := A) (mfail e).
Proof. intros s. reflexivity. Qed.

Lemma keeps_mlift {A} (p : pres A) : keeps_address (T := T) (mlift p).
Proof. intros s. unfold mlift. now destruct p. Qed.

Lemma keeps_on_dev (f : T -> T * outcome unit) : keeps_address (on_dev f).
Proof. intros s. apply on_dev_address. Qed.

Lemma keeps_mbind {A B} (m : M T A) (k : A -> M T B) :
  keeps_address m -> (forall a, keeps_address (k a)) -> keeps_address (mbind m k).
Proof.
  intros Hm Hk s. unfold mbind. specialize (Hm s).
  destruct (m s) as [s' [a|e|p]]; simpl in *; try exact Hm.
  rewrite Hk. exact Hm.
Qed.

Lemma keeps_write md c d : keeps_address (write (T := T) md c d).
Proof. intros s. apply write_address. Qed.

Lemma keeps_run_command md c : keeps_address (run_command (T := T) md c).
Proof.
  destruct c; simpl;
    unfold set_serial_timeout, set_baud_rate, set_ramping, set_deadband,
      drive_m1, drive_m2, drive_mixed, turn_mixed, write_motor_command;
    repeat match goal with
    | |- keeps_address (if ?b then _ else _) => destruct b
    | |- keeps_address (match ?o with Some _ => _ | None => _ end) => destruct o
    | |- keeps_address (mbind _ _) => apply keeps_mbind; [|intros ?]
    end;
    auto using keeps_mret, keeps_mfail, keeps_mlift, keeps_on_dev, keeps_write.
Qed.

End Preserve.

Lemma ffa_pure {A} (m : M Port A) :
  (forall s, fst (m s) = s) -> frames_from_address m.
Proof.
  intros Hm s. rewrite Hm. split; [reflexivity|].
  exists []. rewrite app_nil_r. split; [reflexivity|constructor].
Qed.

Lemma ffa_mbind {A B} (m : M Port A) (k : A -> M Port B) :
  frames_from_address m -> (forall a, frames_from_address (k a)) ->
  frames_from_address (mbind m k).
Proof.
  intros Hm Hk s. unfold mbind. destruct (Hm s) as [Ha (n1 & Hf1 & Hn1)].
  destruct (m s) as [s' [a|e|p]]; simpl in *;
    try (split; [exact Ha|exists n1; split; assumption]).
  destruct (Hk a s') as [Ha' (n2 & Hf2 & Hn2)].
  split; [congruence|].
  exists (n1 ++ n2). split.
  - rewrite Hf2, Hf1. symmetry. apply app_assoc.
  - apply Forall_app. rewrite Ha in Hn2. split; assumption.
Qed.

Lemma ffa_write md c d : frames_from_address (write md c d).
Proof.
  intros s. split; [apply write_address|].
  unfold write, mbind, mlift.
  destruct (checksum md [address s; c; d]) as [k|p]; simpl.
  - unfold on_dev; destruct s as [[f b w fb] a]; simpl.
    destruct w; simpl.
    + exists []. rewrite app_nil_r. split; [reflexivity|constructor].
    + exists [[a; c; d; k]]. split; [reflexivity|]. repeat constructor.
  - exists []. rewrite app_nil_r. split; [reflexivity|constructor].
Qed.

Lemma ffa_set_baud b : frames_from_address (on_dev (fun d => dev_set_baud_rate d b)).
Proof.
  intros s. split; [apply on_dev_address|].
  exists []. rewrite app_nil_r. split; [|constructor].
  unfold on_dev; destruct s as [[f r w fb] a]; simpl.
  destruct fb; reflexivity.
Qed.

Lemma ffa_mret {A} (a : A) : frames_from_address (mret a).
Proof. apply ffa_pure. reflexivity. Qed.

Lemma ffa_mfail {A} e : frames_from_address (A := A) (mfail e).
Proof. apply ffa_pure. reflexivity. Qed.

Lemma ffa_mlift {A} (p : pres A) : frames_from_address (mlift p).
Proof. apply ffa_pure. intros s. unfold mlift. now destruct p. Qed.

Lemma ffa_run_command md c : frames_from_address (run_command md c).
Proof.
  destruct c; simpl;
    unfold set_serial_timeout, set_baud_rate, set_ramping, set_deadband,
      drive_m1, drive_m2, drive_mixed, turn_mixed, write_motor_command;
    repeat match goal with
    | |- frames_from_address (if ?b then _ else _) => destruct b
    | |- frames_from_address (match ?o with Some _ => _ | None => _ end) => destruct o
    | |- frames_from_address (mbind _ _) => apply ffa_mbind; [|intros ?]
    end;
    auto using ffa_mret, ffa_mfail, ffa_mlift, ffa_set_baud, ffa_write.
Qed.

Lemma overflowing_no_div md t r : no_div_by_zero (overflowing md t r).
Proof. unfold no_div_by_zero, overflowing. destruct (in_range t r), md; discriminate. Qed.

Lemma sum_u32_no_div md acc l : no_div_by_zero (sum_u32 md acc l).
Proof.
  revert acc. induction l as [|b l IH]; intros acc; simpl; [discriminate|].
  unfold add. pose proof (overflowing_no_div md u32 (acc + b)) as Ho.
  destruct (overflowing md u32 (acc + b)); simpl; [apply IH|exact Ho].
Qed.

Lemma checksum_no_div md l : no_div_by_zero (checksum md l).
Proof.
  unfold checksum. pose proof (sum_u32_no_div md 0 l) as Hs.
  destruct (sum_u32 md 0 l); simpl; [discriminate|exact Hs].
Qed.

(** [map_range] divides by zero only when [from_range] has zero width. *)
Lemma map_range_div_by_zero md t f0 f1 r s :
  map_range md t (f0, f1) r s = PPanic DivByZero ->
  sub md t f1 f0 = PVal 0.
Proof.
  unfold map_range; cbn [fst snd].
  pose proof (overflowing_no_div md t (s - f0)) as H1.
  pose proof (overflowing_no_div md t (snd r - fst r)) as H2.
  unfold sub in *. destruct (overflowing md t (s - f0)) as [d1|]; cbn [pbind];
    [|intros E; rewrite E in H1; contradiction].
  destruct (overflowing md t (snd r - fst r)) as [d2|]; cbn [pbind];
    [|intros E; rewrite E in H2; contradiction].
  unfold mul. pose proof (overflowing_no_div md t (d1 * d2)) as H3.
  destruct (overflowing md t (d1 * d2)) as [p|]; cbn [pbind];
    [|intros E; rewrite E in H3; contradiction].
  pose proof (overflowing_no_div md t (f1 - f0)) as H4.
  destruct (overflowing md t (f1 - f0)) as [w|]; cbn [pbind];
    [|intros E; rewrite E in H4; contradiction].
  unfold div. destruct (Z.eqb_spec w 0) as [->|Hw]; [reflexivity|].
  destruct (in_range t (Z.quot p w)); cbn [pbind]; [|discriminate].
  unfold add. intros E. exfalso. exact (overflowing_no_div md t (fst r + Z.quot p w) E).
Qed.

Lemma ndz_mret {A} (a : A) : never_div_by_zero (mret a).
Proof. intros s. discriminate. Qed.

Lemma ndz_mfail {A} e : never_div_by_zero (A := A) (mfail e).
Proof. intros s. discriminate. Qed.

Lemma ndz_mlift {A} (p : pres A) : no_div_by_zero p -> never_div_by_zero (mlift p).
Proof.
  intros Hp s. unfold mlift. destruct p; simpl; [discriminate|].
  intros [= E]. apply Hp. now rewrite E.
Qed.

Lemma ndz_mbind {A B} (m : M Port A) (k : A -> M Port B) :
  never_div_by_zero m -> (forall a, never_div_by_zero (k a)) ->
  never_div_by_zero (mbind m k).
Proof.
  intros Hm Hk s. unfold mbind. specialize (Hm s).
  destruct (m s) as [s' [a|e|p]]; simpl in *; [apply Hk|discriminate|].
  intros [= E]. apply Hm. now rewrite E.
Qed.

Lemma ndz_on_dev_write buf : never_div_by_zero (on_dev (fun d => write_all d buf)).
Proof.
  intros s. unfold on_dev. simpl. destruct (fail_write (dev s)); discriminate.
Qed.

Lemma ndz_on_dev_baud b : never_div_by_zero (on_dev (fun d => dev_set_baud_rate d b)).
Proof.
  intros s. unfold on_dev. simpl. destruct (fail_baud (dev s)); discriminate.
Qed.

Lemma ndz_write md c d : never_div_by_zero (write md c d).
Proof.
  intros s. unfold write.
  apply ndz_mbind; [apply ndz_mlift, checksum_no_div|intros ?; apply ndz_on_dev_write].
Qed.

Lemma div_no_div t a b : b <> 0 -> no_div_by_zero (div t a b).
Proof.
  intros Hb. unfold no_div_by_zero, div. apply Z.eqb_neq in Hb. rewrite Hb.
  destruct (in_range t (Z.quot a b)); discriminate.
Qed.

Lemma map_range_no_div md t f0 f1 r s w :
  sub md t f1 f0 = PVal w -> w <> 0 -> no_div_by_zero (map_range md t (f0, f1) r s).
Proof.
  intros Hw Hnz E. apply map_range_div_by_zero in E. congruence.
Qed.

Lemma ndz_run_command md c : never_div_by_zero (run_command md c).
Proof.
  destruct c; simpl;
    unfold set_serial_timeout, set_baud_rate, set_ramping, set_deadband,
      drive_m1, drive_m2, drive_mixed, turn_mixed, write_motor_command;
    repeat match goal with
    | |- never_div_by_zero (if ?b then _ else _) => destruct b
    | |- never_div_by_zero (match ?o with Some _ => _ | None => _ end) => destruct o
    | |- never_div_by_zero (mbind _ _) => apply ndz_mbind; [|intros ?]
    | |- never_div_by_zero (mlift _) => apply ndz_mlift
    end;
    auto using ndz_mret, ndz_mfail, ndz_write, ndz_on_dev_baud.
  - apply div_no_div. lia.
  - eapply map_range_no_div; [reflexivity|unfold MAX_SERIAL_TIMEOUT_MS; lia].
  - eapply map_range_no_div; [reflexivity|unfold MAX_SERIAL_TIMEOUT_MS; lia].
  - eapply map_range_no_div; [reflexivity|unfold MAX_SERIAL_TIMEOUT_MS; lia].
  - apply overflowing_no_div.
  - apply overflowing_no_div.
  - apply overflowing_no_div.
  - apply overflowing_no_div.
Qed.

(** [write] on the recording port, for byte-sized fields. *)
Lemma write_port md c d s :
  0 <= address s <= 255 -> 0 <= c <= 255 -> 0 <= d <= 255 ->
  write md c d s =
  if fail_write (dev s) then (s, RErr Serial)
  else (mkPacketSerial
          (mkPort (frames (dev s) ++ [[address s; c; d; Z.land (address s + c + d) 127]])
             (port_baud (dev s)) (fail_write (dev s)) (fail_baud (dev s)))
          (address s), ROk tt).
Proof.
  intros Ha Hc Hd. unfold write, mbind, mlift.
  rewrite checksum3 by assumption.
  unfold on_dev. destruct s as [[f b w fb] a]; simpl.
  destruct w; reflexivity.
Qed.

Lemma baud_code_range b code : baud_code b = Some code -> 1 <= code <= 5.
Proof.
  unfold baud_code.
  repeat match goal with |- context [if ?c then _ else _] => destruct c end;
    intros [= <-] || discriminate; lia.
Qed.

(** * The claims *)

(** C1: for every [i8] value each motor operation splits on the sign: a
    non-negative value is written with the forward command code and data
    [min(127, value)], a negative one with the backward code and data
    [-(max(-127, value))]; the data byte is within 0..127, and
    [drive_m1(-128)] writes backward code 1 with data 127. *)
Theorem motor_commands_sign_split {T} `{SabertoothSerial T} md value (s : PacketSerial T) :
  -128 <= value <= 127 ->
  let data := if 0 <=? value then Z.min 127 value else - Z.max (-127) value in
  drive_m1 md value s = write md (if 0 <=? value then 0 else 1) data s /\
  drive_m2 md value s = write md (if 0 <=? value then 4 else 5) data s /\
  drive_mixed md value s = write md (if 0 <=? value then 8 else 9) data s /\
  turn_mixed md value s = write md (if 0 <=? value then 10 else 11) data s /\
  0 <= data <= 127 /\
  drive_m1 md (-128) s = write md 1 127 s.
Proof.
  intros Hv data. unfold data, drive_m1, drive_m2, drive_mixed, turn_mixed.
  rewrite !write_motor_command_eq by lia.
  destruct (Z.leb_spec 0 value).
  - repeat split; try reflexivity; lia.
  - repeat split; try reflexivity; lia.
Qed.

Lemma motor_commands_sign_split_witness :
  -128 <= -128 <= 127 /\
  drive_m1 Checked (-128) (from_dev (mkPort [] 9600 false false))
  = write Checked 1 127 (from_dev (mkPort [] 9600 false false)).
Proof.
  split; [lia|].
  apply (motor_commands_sign_split Checked (-128) (from_dev (mkPort [] 9600 false false))).
  lia.
Defined.

(** C2: a successful command writes exactly one frame
    [address; command; data; checksum] where the checksum is
    [(address + command + data) & 0x7F]; and
    [checksum([0x80, 0x81, 0x04, 0x07, 0x09]) = 0x15]. *)
Theorem command_success_writes_one_frame md c (s : PacketSerial Port) :
  command_wf c = true ->
  0 <= address s <= 255 ->
  snd (run_command md c s) = ROk tt ->
  (exists code data,
      frames (dev (fst (run_command md c s)))
      = frames (dev s) ++ [[address s; code; data; Z.land (address s + code + data) 127]])
  /\ checksum md [128; 129; 4; 7; 9] = PVal 21.
Proof.
  intros Hwf Ha Hok. split; [|destruct md; reflexivity].
  destruct (run_command_shape md c s Hwf)
    as [(e & He & Hne) | [(code & data & Hc & Hd & He) | (b & code & Hcb & Hb & He)]];
    rewrite He in *.
  - simpl in Hok. contradiction.
  - rewrite write_port in * by assumption.
    destruct (fail_write (dev s)); simpl in Hok |- *; [discriminate|].
    eauto.
  - apply baud_code_range in Hb.
    unfold mbind in *. rewrite write_port in * by (assumption || lia).
    destruct (fail_write (dev s)); simpl in Hok |- *; [discriminate|].
    destruct (fail_baud (dev s)); simpl in Hok |- *; [discriminate|].
    eauto.
Qed.

Lemma command_success_writes_one_frame_witness :
  command_wf (DriveM1 100) = true /\
  0 <= address (from_dev (mkPort [] 9600 false false)) <= 255 /\
  snd (run_command Checked (DriveM1 100) (from_dev (mkPort [] 9600 false false))) = ROk tt /\
  ((exists code data,
      frames (dev (fst (run_command Checked (DriveM1 100) (from_dev (mkPort [] 9600 false false)))))
      = [] ++ [[128; code; data; Z.land (128 + code + data) 127]])
   /\ checksum Checked [128; 129; 4; 7; 9] = PVal 21).
Proof.
  refine (conj eq_refl (conj _ (conj eq_refl _))).
  - unfold from_dev, DEFAULT_ADDRESS; simpl; lia.
  - apply (command_success_writes_one_frame Checked (DriveM1 100)
             (from_dev (mkPort [] 9600 false false))).
    + reflexivity.
    + unfold from_dev, DEFAULT_ADDRESS; simpl; lia.
    + reflexivity.
Defined.

(** C3: [set_serial_timeout ms] fails with InvalidInput, leaving the encoder
    and its transport untouched, when [ms > 12700]; otherwise it writes
    command 14 with data [units] mapped linearly from [0, 12700] onto
    [0, 127], where [units] is 1 for 1..99 ms and [ms / 100] otherwise. *)
Theorem set_serial_timeout_encoding {T} `{SabertoothSerial T} md ms (s : PacketSerial T) :
  0 <= ms <= 65535 ->
  (12700 < ms -> set_serial_timeout md ms s = (s, RErr InvalidInput)) /\
  (ms <= 12700 ->
   let units := if (0 <? ms) && (ms <? 100) then 1 else ms / 100 in
   set_serial_timeout md ms s
   = write md 14 (0 + (units - 0) * (127 - 0) / (12700 - 0)) s).
Proof.
  intros Hms. split.
  - intros Hgt. unfold set_serial_timeout, MAX_SERIAL_TIMEOUT_MS.
    apply Z.ltb_lt in Hgt. now rewrite Hgt.
  - intros Hle units. unfold set_serial_timeout.
    replace (MAX_SERIAL_TIMEOUT_MS <? ms) with false
      by (symmetry; apply Z.ltb_ge; unfold MAX_SERIAL_TIMEOUT_MS; lia).
    destruct (timeout_units (T := T) ms) as (u & Hu & Heq & Hdef);
      [unfold MAX_SERIAL_TIMEOUT_MS; lia|].
    unfold mbind at 1. rewrite Heq. unfold mret, mbind, mlift.
    rewrite timeout_map by exact Hu.
    fold units in Hdef. subst u.
    rewrite cast_u8_id.
    + f_equal. rewrite !Z.sub_0_r. lia.
    + split; [apply Z.div_pos|apply Z.div_le_upper_bound]; lia.
Qed.

Lemma set_serial_timeout_encoding_witness :
  0 <= 13000 <= 65535 /\
  set_serial_timeout Checked 13000 (from_dev (mkPort [] 9600 false false))
  = (from_dev (mkPort [] 9600 false false), RErr InvalidInput).
Proof.
  split; [lia|].
  apply (set_serial_timeout_encoding Checked 13000 (from_dev (mkPort [] 9600 false false))).
  - lia.
  - lia.
Defined.

(** C5: [set_baud_rate] of a value outside {2400, 9600, 19200, 38400, 115200}
    fails with InvalidInput and leaves the encoder and the port untouched;
    for a value of that set it writes command 15 with the code 1..5 of the
    value, and sets the port's own baud rate only once that write has
    succeeded: a failed write leaves the port's baud rate as it was. *)
Theorem set_baud_rate_spec md b (s : PacketSerial Port) :
  0 <= address s <= 255 ->
  (~ In b [2400; 9600; 19200; 38400; 115200] ->
   set_baud_rate md b s = (s, RErr InvalidInput)) /\
  (forall code,
   In (b, code) [(2400, 1); (9600, 2); (19200, 3); (38400, 4); (115200, 5)] ->
   (fail_write (dev s) = true -> set_baud_rate md b s = (s, RErr Serial)) /\
   (fail_write (dev s) = false ->
    frames (dev (fst (set_baud_rate md b s)))
    = frames (dev s) ++ [[address s; 15; code; Z.land (address s + 15 + code) 127]] /\
    port_baud (dev (fst (set_baud_rate md b s)))
    = (if fail_baud (dev s) then port_baud (dev s) else b) /\
    snd (set_baud_rate md b s) = (if fail_baud (dev s) then RErr Serial else ROk tt))).
Proof.
  intros Ha. split.
  - intros Hnin. unfold set_baud_rate.
    replace (baud_code b) with (@None Z); [reflexivity|].
    unfold baud_code.
    repeat match goal with
    | |- context [?x =? ?y] => destruct (Z.eqb_spec x y) as [->|]
    end; try reflexivity; exfalso; apply Hnin; simpl; tauto.
  - intros code Hin.
    assert (Hb : baud_code b = Some code /\ 1 <= code <= 5).
    { simpl in Hin.
      repeat match type of Hin with
      | _ \/ _ => destruct Hin as [[= <- <-]|Hin]; [split; [reflexivity|lia]|]
      | False => contradiction
      end. }
    destruct Hb as [Hb Hc].
    unfold set_baud_rate. rewrite Hb. unfold mbind.
    rewrite write_port by (assumption || lia).
    destruct (fail_write (dev s)) eqn:Hw; split; intros E; try discriminate.
    + reflexivity.
    + unfold on_dev; simpl. destruct (fail_baud (dev s)); simpl; auto.
Qed.

Lemma set_baud_rate_spec_witness :
  0 <= address (from_dev (mkPort [] 9600 false false)) <= 255 /\
  set_baud_rate Checked 1000 (from_dev (mkPort [] 9600 false false))
  = (from_dev (mkPort [] 9600 false false), RErr InvalidInput).
Proof.
  assert (Ha : 0 <= address (from_dev (mkPort [] 9600 false false)) <= 255)
    by (unfold from_dev, DEFAULT_ADDRESS; simpl; lia).
  split; [exact Ha|].
  apply (set_baud_rate_spec Checked 1000 (from_dev (mkPort [] 9600 false false)) Ha).
  simpl. intuition discriminate.
Defined.

(** C9: [map_range] divides by [from_range.1 - from_range.0] unguarded, but
    every call the encoder makes passes a range of nonzero width
    ((0, 12700) in [set_serial_timeout], (0, 255) in [set_ramping] and
    [set_deadband]), so no command ever panics on a zero divisor. *)
Theorem commands_never_divide_by_zero :
  (forall md t f0 f1 r s,
     map_range md t (f0, f1) r s = PPanic DivByZero -> sub md t f1 f0 = PVal 0) /\
  (forall md units,
     map_range md u16 (0, MAX_SERIAL_TIMEOUT_MS) (0, 127) units <> PPanic DivByZero) /\
  (forall md rate, map_range md u8 (0, 255) (0, 80) rate <> PPanic DivByZero) /\
  (forall md deadband, map_range md u8 (0, 255) (0, 127) deadband <> PPanic DivByZero) /\
  (forall md c (s : PacketSerial Port), snd (run_command md c s) <> RPanic DivByZero).
Proof.
  repeat split.
  - intros md t f0 f1 r s. apply map_range_div_by_zero.
  - intros md units. eapply map_range_no_div; [reflexivity|unfold MAX_SERIAL_TIMEOUT_MS; lia].
  - intros md rate. eapply map_range_no_div; [reflexivity|lia].
  - intros md deadband. eapply map_range_no_div; [reflexivity|lia].
  - intros md c s. apply ndz_run_command.
Qed.

(** C10: no command changes the encoder's address, whether it succeeds or
    fails, and every frame it writes starts with that address;
    [with_address] sets the address and keeps the device. *)
Theorem address_invariant :
  (forall T (inst : SabertoothSerial T) md c (s : PacketSerial T),
     address (fst (run_command md c s)) = address s) /\
  (forall md c (s : PacketSerial Port),
     exists new, frames (dev (fst (run_command md c s))) = frames (dev s) ++ new /\
       Forall (fun f => hd_error f = Some (address s)) new) /\
  (forall T (s : PacketSerial T) a, address (with_address s a) = a /\ dev (with_address s a) = dev s).
Proof.
  repeat split.
  - intros T inst md c s. apply keeps_run_command.
  - intros md c s. apply ffa_run_command.
Qed.

(** C4 (fails): [set_ramping] and [set_deadband] call [map_range] at [u8],
    the type of their argument, so [(rate - 0) * (80 - 0)] overflows for a
    rate of 4 or more (and [deadband * 127] from 3 on).  At 255, a debug
    build panics and a release build writes data byte 0, where the linear
    map onto [0, 80] (resp. [0, 127]) gives 80 (resp. 127). *)
Theorem ramping_deadband_u8_overflow :
  let s := from_dev (mkPort [] 9600 false false) in
  set_ramping Checked 255 s = (s, RPanic Overflow) /\
  set_deadband Checked 255 s = (s, RPanic Overflow) /\
  frames (dev (fst (set_ramping Wrapping 255 s))) = [[128; 16; 0; 16]] /\
  frames (dev (fst (set_deadband Wrapping 255 s))) = [[128; 17; 0; 17]] /\
  0 + (255 - 0) * (80 - 0) / (255 - 0) = 80 /\
  0 + (255 - 0) * (127 - 0) / (255 - 0) = 127.
Proof. vm_compute. repeat split. Qed.

(** C7: in every numeric domain [map_range(from_range, to_range, value)] is
    [to_low + (value - from_low) * (to_high - to_low) / (from_high - from_low)]
    evaluated in that domain: for every integer type in either build
    profile (division truncating toward zero, as the last example shows) and
    for every IEEE binary floating-point format; over [i32],
    [map_range((-128, 127), (204, 409), v)] is 204, 306 and 409 at
    [v] = -128, 0 and 127; over [f32],
    [map_range((1200.0, 1500.0), (0.0, 1.0), 1350.0)] is 0.5. *)
Theorem map_range_affine :
  (forall md t from_low from_high to_low to_high value,
     map_range md t (from_low, from_high) (to_low, to_high) value
     = affine_formula (int_domain md t) from_low from_high to_low to_high value) /\
  (forall prec emax from_low from_high to_low to_high value,
     PVal (map_range_float prec emax (from_low, from_high) (to_low, to_high) value)
     = affine_formula (float_domain prec emax) from_low from_high to_low to_high value) /\
  (forall md,
     map_range md i32 (-128, 127) (204, 409) (-128) = PVal 204 /\
     map_range md i32 (-128, 127) (204, 409) 0 = PVal 306 /\
     map_range md i32 (-128, 127) (204, 409) 127 = PVal 409 /\
     map_range md i32 (0, 2) (0, 1) (-1) = PVal 0) /\
  map_range_float F32.prec F32.emax (F32.of_Z 1200, F32.of_Z 1500)
    (F32.of_Z 0, F32.of_Z 1) (F32.of_Z 1350)
  = F32.div (F32.of_Z 1) (F32.of_Z 2).
Proof.
  split; [|split; [|split]].
  - intros md t from_low from_high to_low to_high value. reflexivity.
  - intros prec emax from_low from_high to_low to_high value. reflexivity.
  - intros md. destruct md; vm_compute; repeat split.
  - vm_compute. reflexivity.
Qed.

(** C8: [set_min_voltage] and [set_max_voltage] accept every [u8] and, when
    the transport write succeeds, write one frame whose data byte is the
    argument itself. *)
Theorem voltage_limits_identity md cmin cmax units (s : PacketSerial Port) :
  0 <= cmin <= 17 -> 0 <= cmax <= 17 ->
  0 <= units <= 255 -> 0 <= address s <= 255 -> fail_write (dev s) = false ->
  snd (set_min_voltage md cmin units s) = ROk tt /\
  frames (dev (fst (set_min_voltage md cmin units s)))
  = frames (dev s) ++ [[address s; cmin; units; Z.land (address s + cmin + units) 127]] /\
  snd (set_max_voltage md cmax units s) = ROk tt /\
  frames (dev (fst (set_max_voltage md cmax units s)))
  = frames (dev s) ++ [[address s; cmax; units; Z.land (address s + cmax + units) 127]].
Proof.
  intros Hmin Hmax Hu Ha Hw.
  unfold set_min_voltage, set_max_voltage.
  rewrite !write_port by lia. rewrite Hw. repeat split.
Qed.

Lemma voltage_limits_identity_witness :
  0 <= 2 <= 17 /\ 0 <= 3 <= 17 /\ 0 <= 255 <= 255 /\
  0 <= address (from_dev (mkPort [] 9600 false false)) <= 255 /\
  fail_write (dev (from_dev (mkPort [] 9600 false false))) = false /\
  frames (dev (fst (set_min_voltage Checked 2 255 (from_dev (mkPort [] 9600 false false)))))
  = [] ++ [[128; 2; 255; Z.land (128 + 2 + 255) 127]].
Proof.
  assert (Ha : 0 <= address (from_dev (mkPort [] 9600 false false)) <= 255)
    by (unfold from_dev, DEFAULT_ADDRESS; simpl; lia).
  refine (conj _ (conj _ (conj _ (conj Ha (conj eq_refl _))))); try lia.
  apply (voltage_limits_identity Checked 2 3 255 (from_dev (mkPort [] 9600 false false)));
    try lia; try exact Ha; reflexivity.
Defined.

(** ** [f32] comparisons against -1.0 and 1.0 *)

Lemma digits2_pos_bound m :
  2 ^ (Zpos (digits2_pos m) - 1) <= Zpos m < 2 ^ Zpos (digits2_pos m).
Proof.
  induction m as [p IH|p IH|]; simpl digits2_pos;
    [change (Zpos p~1) with (2 * Zpos p + 1) | change (Zpos p~0) with (2 * Zpos p)
    | simpl; lia];
    rewrite Pos2Z.inj_succ; set (d := Zpos (digits2_pos p)) in *;
    assert (E1 : 2 ^ (Z.succ d) = 2 * 2 ^ d) by (apply Z.pow_succ_r; lia);
    assert (E2 : 2 ^ d = 2 * 2 ^ (d - 1))
      by (rewrite <- Z.pow_succ_r by lia; f_equal; lia);
    replace (Z.succ d - 1) with d by lia; rewrite E1; lia.
Qed.

(** A canonical binary32 mantissa is below [2^24]; one with an exponent above
    the subnormal one is at least [2^23]. *)
Lemma valid_mantissa s m e :
  F32.valid (S754_finite s m e) = true ->
  Zpos m < 2 ^ 24 /\ -149 <= e /\ (e <> -149 -> 2 ^ 23 <= Zpos m).
Proof.
  unfold F32.valid, valid_binary, bounded, canonical_mantissa, fexp, emin,
    F32.prec, F32.emax.
  rewrite andb_true_iff, Z.eqb_eq. intros [Hc _].
  pose proof (digits2_pos_bound m) as Hd.
  set (d := Zpos (digits2_pos m)) in *.
  assert (Hd1 : 1 <= d) by (unfold d; lia).
  assert (He : e = d + e - 24 \/ e = -149) by lia.
  split; [|split]; [| lia |].
  - destruct He as [He|He].
    + replace d with 24 in Hd by lia. lia.
    + assert (d <= 24) by lia.
      assert (2 ^ d <= 2 ^ 24) by (apply Z.pow_le_mono_r; lia). lia.
  - intros Hne. replace d with 24 in Hd by lia. exact (proj1 Hd).
Qed.

Lemma pow2_le a b : a <= b -> 0 <= a -> 2 ^ a <= 2 ^ b.
Proof. intros. apply Z.pow_le_mono_r; lia. Qed.

Lemma pos_compare_cont_Z a b : Pos.compare_cont Eq a b = Z.compare (Zpos a) (Zpos b).
Proof. reflexivity. Qed.

Lemma f32_of_Z_one : F32.of_Z 1 = S754_finite false 8388608 (-23).
Proof. vm_compute. reflexivity. Qed.

Lemma f32_of_Z_minus_one : F32.of_Z (-1) = S754_finite true 8388608 (-23).
Proof. vm_compute. reflexivity. Qed.

(** [-1.0 <= x && x <= 1.0] on [f32] is membership of the value in [-1, 1]. *)
Lemma f32_in_unit_interval x :
  F32.valid x = true ->
  F32.le (F32.of_Z (-1)) x && F32.le x (F32.of_Z 1) = F32.in_unit x.
Proof.
  intros Hv. rewrite f32_of_Z_minus_one, f32_of_Z_one.
  destruct x as [sx|sx| |sx m e]; [destruct sx; reflexivity|destruct sx; reflexivity|reflexivity|].
  destruct (valid_mantissa sx m e Hv) as (Hm & He & Hn).
  change (2 ^ 24) with 16777216 in Hm. change (2 ^ 23) with 8388608 in Hn.
  unfold F32.le, SFleb, SFcompare, F32.in_unit.
  rewrite !pos_compare_cont_Z.
  rewrite (Z.compare_antisym e (-23)).
  destruct (Z.compare_spec e (-23)) as [Heq|Hlt|Hgt]; cbn [CompOpp].
  - destruct (Z.leb_spec 0 e) as [He0|He0]; [lia|].
    assert (E : 2 ^ (- e) = 8388608) by (rewrite Heq; reflexivity).
    rewrite E.
    destruct sx; cbn [andb];
      [rewrite <- (Z.compare_antisym 8388608 (Zpos m)), andb_true_r|];
      unfold Z.leb; reflexivity.
  - destruct (Z.leb_spec 0 e) as [He0|He0]; [lia|].
    assert (16777216 <= 2 ^ (- e))
      by (change 16777216 with (2 ^ 24); apply pow2_le; lia).
    destruct sx; cbn [andb]; symmetry; apply Z.leb_le; lia.
  - specialize (Hn ltac:(lia)).
    assert (Hf : (if 0 <=? e then Zpos m * 2 ^ e <=? 1 else Zpos m <=? 2 ^ (- e)) = false).
    { destruct (Z.leb_spec 0 e).
      - apply Z.leb_gt. assert (0 < 2 ^ e) by (apply Z.pow_pos_nonneg; lia). nia.
      - apply Z.leb_gt. assert (2 ^ (- e) <= 4194304)
          by (change 4194304 with (2 ^ 22); apply pow2_le; lia). lia. }
    rewrite Hf. destruct sx; reflexivity.
Qed.

(** C6: [ratio_to_value] fails with InvalidInput exactly when the [f32]
    ratio does not lie in [-1.0, 1.0] (NaN and infinities included); inside
    that interval it returns the [f32] product [ratio * 2047.0] truncated to
    an integer and clamped to [-2047, 2047]; at 1.0, -1.0 and 0.0 it gives
    2047, -2047 and 0. *)
Theorem ratio_to_value_spec (x : F32.f32) :
  F32.valid x = true ->
  (ratio_to_value x = RErr InvalidInput <-> F32.in_unit x = false) /\
  (F32.in_unit x = true ->
   ratio_to_value x
   = ROk (Z.max RANGE_MIN (Z.min RANGE_MAX (F32.to_i32 (F32.mul x (F32.of_Z RANGE_MAX)))))) /\
  ratio_to_value (F32.of_Z 1) = ROk 2047 /\
  ratio_to_value (F32.of_Z (-1)) = ROk (-2047) /\
  ratio_to_value (F32.of_Z 0) = ROk 0.
Proof.
  intros Hv.
  assert (Hval : F32.in_unit x = true ->
    ratio_to_value x
    = ROk (Z.max RANGE_MIN (Z.min RANGE_MAX (F32.to_i32 (F32.mul x (F32.of_Z RANGE_MAX)))))).
  { intros Hin. unfold ratio_to_value. rewrite f32_in_unit_interval, Hin by exact Hv.
    cbn [negb].
    set (v := F32.to_i32 (F32.mul x (F32.of_Z RANGE_MAX))).
    unfold RANGE_MAX, RANGE_MIN.
    destruct (Z.ltb_spec 2047 v); [f_equal; lia|].
    destruct (Z.ltb_spec v (-2047)); f_equal; lia. }
  split; [|split; [exact Hval|]].
  - destruct (F32.in_unit x) eqn:Hin.
    + rewrite (Hval eq_refl). split; discriminate.
    + unfold ratio_to_value. rewrite f32_in_unit_interval, Hin by exact Hv.
      split; reflexivity.
  - vm_compute. repeat split.
Qed.

Lemma ratio_to_value_spec_witness :
  F32.valid (F32.of_Z 1) = true /\ ratio_to_value (F32.of_Z 1) = ROk 2047.
Proof.
  assert (Hv : F32.valid (F32.of_Z 1) = true) by (vm_compute; reflexivity).
  split; [exact Hv|].
  apply (ratio_to_value_spec (F32.of_Z 1) Hv).
Defined.

(** * Further properties of the code *)

(** ** Exhaustive checks over a range of integers *)



Lemma In_Zrange lo hi k : lo <= k <= hi -> In k (Zrange lo hi).
Proof.
  intros Hk. unfold Zrange. apply in_map_iff.
  exists (Z.to_nat (k - lo)). split.
  - rewrite Z2Nat.id by lia. lia.
  - apply in_seq. lia.
Qed.

Lemma forallb_Zrange (f : Z -> bool) lo hi :
  forallb f (Zrange lo hi) = true -> forall k, lo <= k <= hi -> f k = true.
Proof.
  intros Hall k Hk. rewrite forallb_forall in Hall. apply Hall, In_Zrange, Hk.
Qed.

Lemma pres_Z_eqb_eq x y : pres_Z_eqb x y = true -> x = y.
Proof.
  destruct x as [a|p], y as [b|q]; simpl; try discriminate.
  - now intros ->%Z.eqb_eq.
  - destruct p, q; simpl; congruence.
Qed.

(** ** [utils::checksum] *)



Lemma u32_range x : in_range u32 x = true <-> 0 <= x <= 4294967295.
Proof.
  unfold in_range. change (min_value u32) with 0. change (max_value u32) with 4294967295.
  rewrite andb_true_iff, !Z.leb_le. lia.
Qed.

Lemma sum_u32_checked acc l :
  0 <= acc <= 4294967295 -> Forall (fun b => 0 <= b <= 255) l ->
  sum_u32 Checked acc l =
  if acc + fold_right Z.add 0 l <=? 4294967295
  then PVal (acc + fold_right Z.add 0 l) else PPanic Overflow.
Proof.
  revert acc. induction l as [|b l IH]; intros acc Hacc Hl; simpl.
  - rewrite Z.add_0_r. destruct (Z.leb_spec acc 4294967295); [reflexivity|lia].
  - inversion Hl as [|? ? Hb Hl']; subst.
    unfold add, overflowing. destruct (in_range u32 (acc + b)) eqn:Hr.
    + apply u32_range in Hr. cbn [pbind]. rewrite IH by assumption.
      now rewrite Z.add_assoc.
    + cbn [pbind]. assert (~ (0 <= acc + b <= 4294967295)) by (rewrite <- u32_range; congruence).
      assert (0 <= fold_right Z.add 0 l).
      { clear -Hl'. induction Hl' as [|x l Hx _ IH']; simpl; lia. }
      destruct (Z.leb_spec (acc + (b + fold_right Z.add 0 l)) 4294967295); [lia|reflexivity].
Qed.

Lemma sum_u32_wrapping acc l :
  0 <= acc <= 4294967295 ->
  sum_u32 Wrapping acc l = PVal ((acc + fold_right Z.add 0 l) mod 2 ^ 32).
Proof.
  revert acc. induction l as [|b l IH]; intros acc Hacc; simpl.
  - rewrite Z.add_0_r, Z.mod_small by lia. reflexivity.
  - unfold add, overflowing.
    assert (Hw : forall x, 0 <= x <= 4294967295 -> PVal x = PVal (x mod 2 ^ 32) :> pres Z)
      by (intros x Hx; rewrite Z.mod_small by lia; reflexivity).
    replace (if in_range u32 (acc + b) then PVal (acc + b) else PVal (wrap u32 (acc + b)))
      with (PVal ((acc + b) mod 2 ^ 32) : pres Z).
    2:{ destruct (in_range u32 (acc + b)) eqn:Hr; [|reflexivity].
        apply u32_range in Hr. rewrite Z.mod_small by lia. reflexivity. }
    cbn [pbind]. rewrite IH by (pose proof (Z.mod_pos_bound (acc + b) (2 ^ 32)); lia).
    f_equal. rewrite Z.add_mod_idemp_l by lia. f_equal. lia.
Qed.

Lemma checksum_of_sum s :
  0 <= s -> cast u8 (Z.land s 127) = s mod 128.
Proof.
  intros Hs. rewrite land_127. apply cast_u8_id.
  pose proof (Z.mod_pos_bound s 128). lia.
Qed.

Lemma byte_sum_nonneg l :
  Forall (fun b => 0 <= b <= 255) l -> 0 <= fold_right Z.add 0 l.
Proof. induction 1; simpl; lia. Qed.

Lemma byte_sum_perm l l' :
  Permutation l l' -> fold_right Z.add 0 l = fold_right Z.add 0 l'.
Proof. induction 1; simpl; lia. Qed.

(** X1: [checksum] in a debug build, for a slice of bytes: the [u32] sum
    panics once the bytes add up past [u32::MAX]; otherwise the result is
    the byte sum modulo 128. *)
Theorem checksum_debug (l : list Z) :
  Forall (fun b => 0 <= b <= 255) l ->
  checksum Checked l =
  if fold_right Z.add 0 l <=? 4294967295
  then PVal (fold_right Z.add 0 l mod 128) else PPanic Overflow.
Proof.
  intros Hl. unfold checksum. rewrite sum_u32_checked by (lia || assumption).
  rewrite Z.add_0_l. destruct (_ <=? _); [|reflexivity].
  cbn [pbind]. rewrite checksum_of_sum by (now apply byte_sum_nonneg).
  reflexivity.
Qed.

Lemma checksum_debug_witness :
  checksum Checked [128; 129; 4; 7; 9]
  = if fold_right Z.add 0 [128; 129; 4; 7; 9] <=? 4294967295
    then PVal (fold_right Z.add 0 [128; 129; 4; 7; 9] mod 128) else PPanic Overflow.
Proof.
  apply checksum_debug.
  repeat (apply Forall_cons; [lia|]). apply Forall_nil.
Defined.

(** X2: [checksum] in a release build: the wrapped [u32] sum keeps the low
    seven bits, so the result is the byte sum modulo 128 for every slice. *)
Theorem checksum_release (l : list Z) :
  checksum Wrapping l = PVal (fold_right Z.add 0 l mod 128).
Proof.
  unfold checksum. rewrite sum_u32_wrapping by lia. cbn [pbind].
  rewrite checksum_of_sum by (apply Z.mod_pos_bound; lia).
  rewrite Z.add_0_l, Z.mod_mod_divide; [reflexivity|].
  exists (2 ^ 25). reflexivity.
Qed.

(** X3: [checksum] of a byte slice does not depend on the order of its bytes,
    in either build profile. *)
Theorem checksum_permutation md (l l' : list Z) :
  Forall (fun b => 0 <= b <= 255) l -> Permutation l l' ->
  checksum md l = checksum md l'.
Proof.
  intros Hl Hp.
  assert (Hl' : Forall (fun b => 0 <= b <= 255) l')
    by (eapply Permutation_Forall; eassumption).
  unfold checksum.
  destruct md.
  - rewrite !sum_u32_checked by (lia || assumption).
    now rewrite (byte_sum_perm _ _ Hp).
  - rewrite !sum_u32_wrapping by lia.
    now rewrite (byte_sum_perm _ _ Hp).
Qed.

Lemma checksum_permutation_witness :
  checksum Checked [128; 16; 80] = checksum Checked [80; 16; 128].
Proof.
  apply checksum_permutation.
  - repeat (apply Forall_cons; [lia|]). apply Forall_nil.
  - apply (Permutation_rev [128; 16; 80]).
Defined.

(** ** [utils::map_range] over integers *)



Lemma in_range_zero t : 1 <= bits t -> in_range t 0 = true.
Proof.
  intros Hb. unfold in_range, min_value, max_value.
  assert (1 <= 2 ^ (bits t - 1))
    by (change 1 with (2 ^ 0); apply Z.pow_le_mono_r; lia).
  assert (2 ^ (bits t - 1) <= 2 ^ bits t) by (apply Z.pow_le_mono_r; lia).
  destruct (signed t); apply andb_true_intro; split; apply Z.leb_le; lia.
Qed.

Lemma overflowing_checked t r v : overflowing Checked t r = PVal v -> v = r /\ in_range t r = true.
Proof.
  unfold overflowing. destruct (in_range t r); [intros [= <-]; now split|discriminate].
Qed.

(** In debug builds a successful [map_range] computed the exact formula. *)

Lemma map_range_checked t a b c d s r :
  map_range Checked t (a, b) (c, d) s = PVal r ->
  b - a <> 0 /\ r = c + Z.quot ((s - a) * (d - c)) (b - a).
Proof.
  unfold map_range, sub, mul, add, div; cbn [fst snd].
  destruct (overflowing Checked t (s - a)) as [d1|] eqn:E1; [|discriminate]; cbn [pbind].
  destruct (overflowing Checked t (d - c)) as [d2|] eqn:E2; [|discriminate]; cbn [pbind].
  destruct (overflowing Checked t (d1 * d2)) as [p|] eqn:E3; [|discriminate]; cbn [pbind].
  destruct (overflowing Checked t (b - a)) as [w|] eqn:E4; [|discriminate]; cbn [pbind].
  apply overflowing_checked in E1 as [-> _], E2 as [-> _], E3 as [-> _], E4 as [-> _].
  destruct (b - a =? 0) eqn:Hw; [discriminate|].
  destruct (in_range t _); [|discriminate]. cbn [pbind].
  intros E5. apply overflowing_checked in E5 as [-> _].
  split; [now apply Z.eqb_neq|reflexivity].
Qed.

(** X4: [map_range] over an integer type sends the ends of [from_range] to the
    ends of [to_range], when the widths and their product fit the type. *)
Theorem map_range_endpoints md t a b c d :
  1 <= bits t -> a <> b ->
  in_range t c = true -> in_range t d = true ->
  in_range t (b - a) = true -> in_range t (d - c) = true ->
  in_range t ((b - a) * (d - c)) = true ->
  map_range md t (a, b) (c, d) a = PVal c /\ map_range md t (a, b) (c, d) b = PVal d.
Proof.
  intros Hb Hab Hc Hd H1 H2 H3. split.
  - rewrite map_range_exact; rewrite ?Z.sub_diag, ?Z.mul_0_l, ?Z.quot_0_l, ?Z.add_0_r;
      auto using in_range_zero.
    all: try lia.
  - rewrite map_range_exact.
    all: try replace (Z.quot ((b - a) * (d - c)) (b - a)) with (d - c)
      by (rewrite Z.mul_comm, Z.quot_mul; lia).
    all: try replace (c + (d - c)) with d by lia; auto; lia.
Qed.

Lemma map_range_endpoints_witness :
  map_range Checked u8 (0, 255) (0, 1) 0 = PVal 0 /\
  map_range Checked u8 (0, 255) (0, 1) 255 = PVal 1.
Proof.
  apply map_range_endpoints; try reflexivity; simpl; lia.
Defined.

(** X5: In a debug build, a successful [map_range] from an increasing range
    onto a non-decreasing one sends a point of [from_range] into [to_range]. *)
Theorem map_range_debug_bounds t a b c d s r :
  a < b -> c <= d -> a <= s <= b ->
  map_range Checked t (a, b) (c, d) s = PVal r -> c <= r <= d.
Proof.
  intros Hab Hcd Hs Hm. apply map_range_checked in Hm as [_ ->].
  assert (0 <= (s - a) * (d - c)) by nia.
  assert ((s - a) * (d - c) <= (b - a) * (d - c)) by nia.
  split.
  - pose proof (Z.quot_pos ((s - a) * (d - c)) (b - a)). lia.
  - assert (Z.quot ((s - a) * (d - c)) (b - a) <= d - c); [|lia].
    apply Z.quot_le_upper_bound; lia.
Qed.

Lemma map_range_debug_bounds_witness :
  map_range Checked i32 (-128, 127) (204, 409) 0 = PVal 306 /\ 204 <= 306 <= 409.
Proof.
  assert (Hm : map_range Checked i32 (-128, 127) (204, 409) 0 = PVal 306)
    by (vm_compute; reflexivity).
  split; [exact Hm|].
  apply (map_range_debug_bounds i32 (-128) 127 204 409 0 306); try lia.
  exact Hm.
Defined.

(** X6: In a debug build, a successful [map_range] from an increasing range onto
    a non-decreasing one is monotone in its argument. *)
Theorem map_range_debug_monotone t a b c d s1 s2 r1 r2 :
  a < b -> c <= d -> s1 <= s2 ->
  map_range Checked t (a, b) (c, d) s1 = PVal r1 ->
  map_range Checked t (a, b) (c, d) s2 = PVal r2 -> r1 <= r2.
Proof.
  intros Hab Hcd Hs H1 H2.
  apply map_range_checked in H1 as [_ ->], H2 as [_ ->].
  apply Z.add_le_mono_l, Z.quot_le_mono; nia.
Qed.

Lemma map_range_debug_monotone_witness :
  map_range Checked i32 (-128, 127) (204, 409) 0 = PVal 306 /\
  map_range Checked i32 (-128, 127) (204, 409) 127 = PVal 409 /\ 306 <= 409.
Proof.
  assert (H0 : map_range Checked i32 (-128, 127) (204, 409) 0 = PVal 306)
    by (vm_compute; reflexivity).
  assert (H1 : map_range Checked i32 (-128, 127) (204, 409) 127 = PVal 409)
    by (vm_compute; reflexivity).
  split; [exact H0|]. split; [exact H1|].
  apply (map_range_debug_monotone i32 (-128) 127 204 409 0 127 306 409); try lia.
  - exact H0.
  - exact H1.
Defined.

(** ** Data bytes of the encoder's settings and motor commands *)



Lemma ramping_map md rate :
  0 <= rate <= 255 ->
  map_range md u8 (0, 255) (0, 80) rate =
  match md with
  | Checked => if 4 <=? rate then PPanic Overflow else PVal 0
  | Wrapping => PVal 0
  end.
Proof.
  intros Hr. apply pres_Z_eqb_eq. revert rate Hr.
  apply forallb_Zrange. destruct md; vm_compute; reflexivity.
Qed.

Lemma deadband_map md deadband :
  0 <= deadband <= 255 ->
  map_range md u8 (0, 255) (0, 127) deadband =
  match md with
  | Checked => if 3 <=? deadband then PPanic Overflow else PVal 0
  | Wrapping => PVal (if deadband =? 129 then 1 else 0)
  end.
Proof.
  intros Hd. apply pres_Z_eqb_eq. revert deadband Hd.
  apply forallb_Zrange. destruct md; vm_compute; reflexivity.
Qed.

(** X7: [set_ramping] on every [u8]: a debug build panics for [rate >= 4]
    before writing anything and otherwise writes data byte 0; a release
    build always writes data byte 0. *)
Theorem set_ramping_data {T} `{SabertoothSerial T} md rate (s : PacketSerial T) :
  0 <= rate <= 255 ->
  set_ramping md rate s =
  match md with
  | Checked => if 4 <=? rate then (s, RPanic Overflow) else write md 16 0 s
  | Wrapping => write md 16 0 s
  end.
Proof.
  intros Hr. unfold set_ramping, mbind, mlift.
  rewrite ramping_map by exact Hr.
  destruct md; [destruct (4 <=? rate)|]; reflexivity.
Qed.

Lemma set_ramping_data_witness :
  set_ramping Checked 200 (from_dev (mkPort [] 9600 false false)) = ((from_dev (mkPort [] 9600 false false)), RPanic Overflow).
Proof.
  rewrite (set_ramping_data Checked 200 (from_dev (mkPort [] 9600 false false))) by lia.
  reflexivity.
Defined.

(** X8: [set_deadband] on every [u8]: a debug build panics for [deadband >= 3]
    before writing anything and otherwise writes data byte 0; a release
    build writes data byte 1 for [deadband = 129] and 0 for every other. *)
Theorem set_deadband_data {T} `{SabertoothSerial T} md deadband (s : PacketSerial T) :
  0 <= deadband <= 255 ->
  set_deadband md deadband s =
  match md with
  | Checked => if 3 <=? deadband then (s, RPanic Overflow) else write md 17 0 s
  | Wrapping => write md 17 (if deadband =? 129 then 1 else 0) s
  end.
Proof.
  intros Hd. unfold set_deadband, mbind, mlift.
  rewrite deadband_map by exact Hd.
  destruct md; [destruct (3 <=? deadband)|]; reflexivity.
Qed.

Lemma set_deadband_data_witness :
  set_deadband Wrapping 129 (from_dev (mkPort [] 9600 false false)) = write Wrapping 17 1 (from_dev (mkPort [] 9600 false false)).
Proof.
  rewrite (set_deadband_data Wrapping 129 (from_dev (mkPort [] 9600 false false))) by lia.
  reflexivity.
Defined.

(** X9: [set_serial_timeout] on every accepted timeout writes command 14 with
    data byte 0 below 10000 ms and 1 from 10000 ms to 12700 ms. *)
Theorem set_serial_timeout_data {T} `{SabertoothSerial T} md ms (s : PacketSerial T) :
  0 <= ms <= MAX_SERIAL_TIMEOUT_MS ->
  set_serial_timeout md ms s = write md 14 (if ms <? 10000 then 0 else 1) s.
Proof.
  intros Hms. unfold set_serial_timeout.
  destruct (Z.ltb_spec MAX_SERIAL_TIMEOUT_MS ms) as [Hgt|_]; [lia|].
  destruct (timeout_units (T := T) ms Hms) as (units & Hu & Heq & Hval).
  unfold mbind at 1. rewrite Heq. unfold mret.
  unfold mbind, mlift. rewrite timeout_map by exact Hu.
  unfold MAX_SERIAL_TIMEOUT_MS in Hms.
  assert (Hd : units * 127 / 12700 = if ms <? 10000 then 0 else 1).
  { subst units. destruct (Z.ltb_spec ms 10000).
    - apply Z.div_small.
      destruct ((0 <? ms) && (ms <? 100)) eqn:Hs; [lia|].
      assert (0 <= ms / 100 < 100) by (split; [apply Z.div_pos|apply Z.div_lt_upper_bound]; lia).
      lia.
    - destruct ((0 <? ms) && (ms <? 100)) eqn:Hs.
      { apply andb_true_iff in Hs as [_ Hs]. apply Z.ltb_lt in Hs. lia. }
      assert (100 <= ms / 100) by (apply Z.div_le_lower_bound; lia).
      assert (ms / 100 <= 127) by (apply Z.div_le_upper_bound; lia).
      symmetry. apply Z.div_unique with (r := ms / 100 * 127 - 12700); lia. }
  rewrite Hd, cast_u8_id by (destruct (ms <? 10000); lia).
  reflexivity.
Qed.

Lemma set_serial_timeout_data_witness :
  set_serial_timeout Checked 12000 (from_dev (mkPort [] 9600 false false)) = write Checked 14 1 (from_dev (mkPort [] 9600 false false)).
Proof.
  rewrite (set_serial_timeout_data Checked 12000 (from_dev (mkPort [] 9600 false false)))
    by (unfold MAX_SERIAL_TIMEOUT_MS; lia).
  reflexivity.
Defined.

(** X10: [write_motor_command] with distinct byte-sized forward and backward
    codes, on a working transport: two [i8] values leave the same encoder
    and port state exactly when they are equal or both are -128 or -127. *)
Theorem motor_frame_collision md f b v1 v2 (s : PacketSerial Port) :
  0 <= address s <= 255 -> 0 <= f <= 255 -> 0 <= b <= 255 -> f <> b ->
  fail_write (dev s) = false ->
  -128 <= v1 <= 127 -> -128 <= v2 <= 127 ->
  (write_motor_command md f b v1 s = write_motor_command md f b v2 s <->
   v1 = v2 \/ (v1 <= -127 /\ v2 <= -127)).
Proof.
  intros Ha Hf Hb Hfb Hw H1 H2.
  rewrite !write_motor_command_eq by assumption.
  split.
  - destruct (Z.leb_spec 0 v1), (Z.leb_spec 0 v2);
      rewrite !write_port by lia; rewrite Hw;
      intros E; injection E as E; apply app_inj_tail in E as [_ E];
      injection E; intros; lia.
  - intros [<-|[Hv1 Hv2]]; [reflexivity|].
    destruct (Z.leb_spec 0 v1); [lia|]. destruct (Z.leb_spec 0 v2); [lia|].
    replace (Z.max (-127) v1) with (-127) by lia.
    replace (Z.max (-127) v2) with (-127) by lia. reflexivity.
Qed.

Lemma motor_frame_collision_witness :
  write_motor_command Checked 0 1 (-128) (from_dev (mkPort [] 9600 false false))
  = write_motor_command Checked 0 1 (-127) (from_dev (mkPort [] 9600 false false)).
Proof.
  apply (motor_frame_collision Checked 0 1 (-128) (-127) (from_dev (mkPort [] 9600 false false)));
    try (unfold from_dev, DEFAULT_ADDRESS; simpl); try reflexivity; lia.
Defined.

(** ** [utils::value_to_ratio] and the sign of [utils::ratio_to_value] *)



(** X11: [ratio_to_value] undoes [value_to_ratio] on [RANGE_MIN..=RANGE_MAX]. *)
Theorem value_ratio_round_trip v :
  RANGE_MIN <= v <= RANGE_MAX -> ratio_to_value (value_to_ratio v) = ROk v.
Proof.
  intros Hv.
  assert (Hb : (fun v => match ratio_to_value (value_to_ratio v) with
                         | ROk w => w =? v | _ => false end) v = true).
  { revert v Hv. apply forallb_Zrange. vm_compute. reflexivity. }
  cbv beta in Hb. destruct (ratio_to_value (value_to_ratio v)); try discriminate.
  apply Z.eqb_eq in Hb. now subst.
Qed.

Lemma value_ratio_round_trip_witness :
  ratio_to_value (value_to_ratio 1000) = ROk 1000.
Proof.
  apply value_ratio_round_trip. unfold RANGE_MIN, RANGE_MAX. lia.
Defined.

Lemma binary_round_aux_opp p e s m ex l :
  binary_round_aux p e (negb s) m ex l = SFopp (binary_round_aux p e s m ex l).
Proof.
  unfold binary_round_aux.
  destruct (shr_fexp p e m ex l) as [mrs' e'].
  destruct (shr_fexp p e _ e' loc_Exact) as [mrs'' e''].
  destruct (shr_m mrs''); [reflexivity| |reflexivity].
  destruct (e'' <=? e - p); reflexivity.
Qed.

Lemma SFmul_opp_l p e x y : SFmul p e (SFopp x) y = SFopp (SFmul p e x y).
Proof.
  destruct x as [sx|sx| |sx mx ex], y as [sy|sy| |sy my ey];
    try destruct sx; try destruct sy; cbn [SFmul SFopp xorb negb];
    first [ reflexivity
          | apply (binary_round_aux_opp p e false)
          | apply (binary_round_aux_opp p e true) ].
Qed.

Lemma SFcompare_opp x y : SFcompare (SFopp x) (SFopp y) = SFcompare y x.
Proof.
  destruct x as [sx|sx| |sx mx ex], y as [sy|sy| |sy my ey];
    try destruct sx; try destruct sy; cbn [SFcompare SFopp negb]; try reflexivity.
  all: pose proof (Pos.compare_cont_antisym mx my Eq) as A; cbn [CompOpp] in A.
  all: rewrite (Z.compare_antisym ex ey).
  all: destruct (Z.compare ex ey); cbn [CompOpp];
    first [ reflexivity
          | rewrite A; reflexivity
          | rewrite <- A, CompOpp_involutive; reflexivity ].
Qed.

Lemma SFleb_opp x y : SFleb (SFopp x) (SFopp y) = SFleb y x.
Proof. unfold SFleb. now rewrite SFcompare_opp. Qed.

Lemma SFopp_involutive x : SFopp (SFopp x) = x.
Proof. destruct x; simpl; rewrite ?negb_involutive; reflexivity. Qed.

Lemma SFleb_opp_l x y : SFleb (SFopp x) y = SFleb (SFopp y) x.
Proof. rewrite <- (SFopp_involutive y) at 1. apply SFleb_opp. Qed.

Lemma f32_of_Z_minus_one_opp : F32.of_Z (-1) = SFopp (F32.of_Z 1).
Proof. rewrite f32_of_Z_one, f32_of_Z_minus_one. reflexivity. Qed.

Lemma clamp_to_i32_opp x :
  (if RANGE_MAX <? F32.to_i32 (SFopp x) then ROk RANGE_MAX
   else if F32.to_i32 (SFopp x) <? RANGE_MIN then ROk RANGE_MIN
   else ROk (F32.to_i32 (SFopp x)))
  = match (if RANGE_MAX <? F32.to_i32 x then ROk RANGE_MAX
           else if F32.to_i32 x <? RANGE_MIN then ROk RANGE_MIN
           else ROk (F32.to_i32 x)) with
    | ROk v => ROk (- v)
    | RErr e => RErr e
    | RPanic p => RPanic p
    end.
Proof.
  unfold RANGE_MAX, RANGE_MIN.
  destruct x as [s|s| |s m e]; cbn [SFopp F32.to_i32].
  - reflexivity.
  - change (min_value i32) with (-2147483648). change (max_value i32) with 2147483647.
    destruct s; reflexivity.
  - reflexivity.
  - change (min_value i32) with (-2147483648). change (max_value i32) with 2147483647.
    set (a := if 0 <=? e then Z.pos m * 2 ^ e else Z.pos m / 2 ^ (- e)).
    destruct s; cbn [negb].
    all: repeat match goal with |- context [?u <? ?w] => destruct (Z.ltb_spec u w) end.
    all: first [ f_equal; lia | lia ].
Qed.

(** X12: [ratio_to_value] is odd: negating the ratio negates the value, and a
    ratio is rejected exactly when its negation is. *)
Theorem ratio_to_value_neg (r : F32.f32) :
  ratio_to_value (F32.neg r) =
  match ratio_to_value r with
  | ROk v => ROk (- v)
  | RErr e => RErr e
  | RPanic p => RPanic p
  end.
Proof.
  unfold ratio_to_value, F32.le, F32.mul, F32.neg.
  rewrite f32_of_Z_minus_one_opp, SFleb_opp.
  rewrite (SFleb_opp_l r (F32.of_Z 1)), (andb_comm (SFleb r _)).
  destruct (SFleb (SFopp (F32.of_Z 1)) r && SFleb r (F32.of_Z 1)); cbn [negb].
  - rewrite SFmul_opp_l. apply clamp_to_i32_opp.
  - reflexivity.
Qed.

(** ** Conversions of [error::Error] *)

Open Scope Z_scope.

(** X13: Converting a [serialport::Error] into an [Error] and back gives the
    same kind and description. *)
Theorem serial_error_round_trip {K : Type} (unknown : K) (err : @ErrorRs.SerialError K) :
  ErrorRs.to_serial unknown (ErrorRs.from_serial err) = err.
Proof. destruct err. reflexivity. Qed.

